(** * Content-based recommendation core of [app.py]

    A shallow embedding of the two functions that make up the similarity
    lookup of the application, [load_data] and [get_recommendations],
    together with the library operations they call:

    - [str.strip] and [str.lower] on titles;
    - the dictionary [title_to_idx] (a [gmap] from normalised title to row);
    - row selection and the matrix-vector product of the TF-IDF matrix;
    - [ndarray.argsort], reversal and the slice [[1:top_n+1]];
    - positional selection [df['title'].iloc[...]].

    The application layer is embedded as far as it computes values: the
    TMDB helpers [fetch_tmdb], [get_movie_details], [search_tmdb] and
    [get_poster_url] over a network given as a function, the list
    [rec_movies] that [view_details] builds from [get_recommendations],
    what [render_movie_grid] shows for one movie, and the session update of
    [navigate_to]. The Streamlit runtime itself (widgets, reruns, caches)
    is outside the model.

    Conventions of the model.
    - A Python [str] is a [string] whose characters are the code points
      U+0000..U+00FF; on that range [isspace] and [lower_char] below agree
      with Python.
    - Matrix entries and scores are rationals; the inner products are exact.
    - [argsort] is a library routine: it is a parameter of the query, with
      the contract NumPy documents (an index permutation that sorts the
      scores in ascending order); [argsort_stable] is the instance that
      keeps equal scores in position order. *)

From Stdlib Require Import Ascii QArith Lqa Sorted Permutation.
From stdpp Require Import gmap strings list fin_maps sorting pretty.

Local Open Scope Z_scope.

(** ** Python strings *)

Module Str.

(** [str.isspace] on one character. *)
Definition isspace (c : ascii) : bool :=
  let n := N_of_ascii c in
  ((9 <=? n) && (n <=? 13) || (28 <=? n) && (n <=? 32)
   || (n =? 133) || (n =? 160))%N.

(** [str.lower] on one character. *)
Definition lower_char (c : ascii) : ascii :=
  let n := N_of_ascii c in
  if ((65 <=? n) && (n <=? 90)
      || (192 <=? n) && (n <=? 222) && negb (n =? 215))%N
  then ascii_of_N (n + 32) else c.

Fixpoint lower (s : string) : string :=
  match s with
  | EmptyString => EmptyString
  | String c s' => String (lower_char c) (lower s')
  end.

Fixpoint lstrip (s : string) : string :=
  match s with
  | EmptyString => EmptyString
  | String c s' => if isspace c then lstrip s' else s
  end.

Fixpoint rstrip (s : string) : string :=
  match s with
  | EmptyString => EmptyString
  | String c s' =>
      match rstrip s' with
      | EmptyString => if isspace c then EmptyString else String c EmptyString
      | r => String c r
      end
  end.

(** [s.strip()]: both ends. *)
Definition strip (s : string) : string := rstrip (lstrip s).

End Str.

(** [norm_title = title.strip().lower()], the expression used for the keys
    in [load_data] and for the query in [get_recommendations]. *)
Definition norm_title (title : string) : string := Str.lower (Str.strip title).

(** ** Exceptions and results *)

Inductive exn : Type :=
| FileNotFoundError (path : string)
| UnpicklingError (msg : string)
| IndexError
| TypeError.

Inductive result (A : Type) : Type :=
| Ok (a : A)
| Raise (e : exn).
Arguments Ok {A} a.
Arguments Raise {A} e.

#[global] Instance result_bind : MBind result := fun _ _ k r =>
  match r with
  | Ok a => k a
  | Raise e => Raise e
  end.

(** ** The loaded data *)

(** The only column of [df] that the core reads. *)
Record DataFrame : Type := { title_col : list string }.

(** The TF-IDF matrix, row by row. *)
Abbreviation Matrix := (list (list Q)).

(** The unpickled [indices] object: either something with [.items()]
    (a dict, a Series) or something with [.index] and [.values]. *)
Inductive Indices : Type :=
| HasItems (items : list (string * Z))
| IndexValues (index : list string) (values : list Z).

(** [indices.items() if hasattr(indices, "items")
     else zip(indices.index, indices.values)] *)
Definition iterable (indices : Indices) : list (string * Z) :=
  match indices with
  | HasItems items => items
  | IndexValues index values => zip index values
  end.

(** The loop [for k, v in iterable: title_to_idx[str(k).strip().lower()] = int(v)]
    from an initial dictionary. *)
Definition title_to_idx_loop (items : list (string * Z)) (init : gmap string Z)
  : gmap string Z :=
  fold_left (fun m kv => <[norm_title kv.1 := kv.2]> m) items init.

Definition build_title_to_idx (indices : Indices) : gmap string Z :=
  title_to_idx_loop (iterable indices) ∅.

(** The three globals [df, title_to_idx, tfidf_matrix]. *)
Record Snapshot : Type := {
  df : option DataFrame;
  title_to_idx : option (gmap string Z);
  tfidf_matrix : option Matrix
}.

(** ** [load_data] *)

(** What is found at a path: nothing, bytes that do not unpickle, or a
    pickled value. *)
Inductive File (A : Type) : Type :=
| Absent
| Garbled (msg : string)
| Pickled (a : A).
Arguments Absent {A}.
Arguments Garbled {A} msg.
Arguments Pickled {A} a.

(** [with open(path, "rb") as f: pickle.load(f)] *)
Definition pickle_load {A : Type} (path : string) (f : File A) : result A :=
  match f with
  | Absent => Raise (FileNotFoundError path)
  | Garbled msg => Raise (UnpicklingError msg)
  | Pickled a => Ok a
  end.

Definition DF_PATH : string := "df.pkl".
Definition INDICES_PATH : string := "indices.pkl".
Definition TFIDF_MATRIX_PATH : string := "tfidf_matrix.pkl".

(** The two [st.error] messages of [load_data], with the exception they
    interpolate. *)
Inductive Message : Type :=
| CriticalFileMissing (e : exn)
| ErrorLoadingData (e : exn).

(** The body of the [try] block. *)
Definition load_data_try (fdf : File DataFrame) (findices : File Indices)
    (fmatrix : File Matrix) : result Snapshot :=
  d ← pickle_load DF_PATH fdf;
  indices ← pickle_load INDICES_PATH findices;
  m ← pickle_load TFIDF_MATRIX_PATH fmatrix;
  Ok {| df := Some d;
        title_to_idx := Some (build_title_to_idx indices);
        tfidf_matrix := Some m |}.

Definition no_data : Snapshot :=
  {| df := None; title_to_idx := None; tfidf_matrix := None |}.

(** [load_data()]: the returned triple and the messages shown. *)
Definition load_data (fdf : File DataFrame) (findices : File Indices)
    (fmatrix : File Matrix) : Snapshot * list Message :=
  match load_data_try fdf findices fmatrix with
  | Ok s => (s, [])
  | Raise (FileNotFoundError p) =>
      (no_data, [CriticalFileMissing (FileNotFoundError p)])
  | Raise e => (no_data, [ErrorLoadingData e])
  end.

(** ** Library operations used by the query *)

(** Inner product of two rows. *)
Definition dot (u v : list Q) : Q := foldr Qplus 0%Q (zip_with Qmult u v).

(** [tfidf_matrix[idx]]: a row by integer index; a negative index counts
    from the end, an index outside [-M, M) raises. *)
Definition getrow (m : Matrix) (idx : Z) : result (list Q) :=
  let M := Z.of_nat (length m) in
  if (idx <? - M) || (M <=? idx) then Raise IndexError
  else match m !! Z.to_nat (if idx <? 0 then idx + M else idx) with
       | Some r => Ok r
       | None => Raise IndexError
       end.

(** [(tfidf_matrix @ sig.T).toarray().flatten()] *)
Definition sim_scores (m : Matrix) (sig : list Q) : list Q :=
  map (fun r => dot r sig) m.

(** A slice bound brought into [0, len]: negative bounds count from the
    end. *)
Definition clip_index (len i : Z) : Z :=
  if i <? 0 then Z.max (i + len) 0 else Z.min i len.

(** [l[start:stop]] *)
Definition slice {A : Type} (l : list A) (start stop : Z) : list A :=
  let len := Z.of_nat (length l) in
  let a := clip_index len start in
  let b := clip_index len stop in
  take (Z.to_nat (b - a)) (drop (Z.to_nat a) l).

(** [col.iloc[positions].tolist()]: a position past the end raises. *)
Definition iloc (col : list string) (positions : list nat)
  : result (list string) :=
  match mapM (fun i => col !! i) positions with
  | Some l => Ok l
  | None => Raise IndexError
  end.

(** The score at a position of the score array. *)
Definition score (scores : list Q) (i : nat) : Q := nth i scores 0%Q.

(** ** [get_recommendations] *)

Section Query.

(** [ndarray.argsort()] *)
Variable argsort : list Q -> list nat.

(** [sim_scores.argsort()[::-1][1:top_n+1]] *)
Definition sim_indices (scores : list Q) (top_n : Z) : list nat :=
  slice (reverse (argsort scores)) 1 (top_n + 1).

Definition get_recommendations (s : Snapshot) (title : string) (top_n : Z)
  : result (list string) :=
  match df s, tfidf_matrix s with
  | Some d, Some m =>
      match title_to_idx s with
      | None => Raise TypeError
      | Some t2i =>
          match t2i !! norm_title title with
          | None => Ok []
          | Some idx =>
              sig ← getrow m idx;
              iloc (title_col d) (sim_indices (sim_scores m sig) top_n)
          end
      end
  | _, _ => Ok []
  end.



End Query.

(** ** The contract of [argsort] *)

Definition ascending (scores : list Q) (i j : nat) : Prop :=
  (score scores i <= score scores j)%Q.


(** Equal scores in position order. *)
Definition ascending_stable (scores : list Q) (i j : nat) : Prop :=
  (score scores i < score scores j)%Q
  \/ ((score scores i == score scores j)%Q /\ (i < j)%nat).


(** An index permutation that sorts the scores upwards. *)
Record argsort_spec (argsort : list Q -> list nat) : Prop := {
  argsort_perm : forall scores,
    Permutation (argsort scores) (seq 0 (length scores));
  argsort_sorted : forall scores,
    StronglySorted (ascending scores) (argsort scores)
}.

(** The same, and equal scores stay in position order. *)
Record argsort_stable_spec (argsort : list Q -> list nat) : Prop := {
  argsort_stable_perm : forall scores,
    Permutation (argsort scores) (seq 0 (length scores));
  argsort_stable_sorted : forall scores,
    StronglySorted (ascending_stable scores) (argsort scores)
}.

(** Insertion of a position in front of the first one whose score is not
    smaller. *)
Fixpoint insert_by (scores : list Q) (i : nat) (l : list nat) : list nat :=
  match l with
  | [] => [i]
  | j :: l' =>
      if Qle_bool (score scores i) (score scores j) then i :: l
      else j :: insert_by scores i l'
  end.

(** A stable argsort: insertion sort of the positions by score. *)
Definition argsort_stable (scores : list Q) : list nat :=
  foldr (insert_by scores) [] (seq 0 (length scores)).

(** ** Tie rules and example data *)

(** A string that does not begin with white space. *)
Definition no_leading_space (s : string) : Prop :=
  match s with
  | EmptyString => True
  | String c _ => Str.isspace c = false
  end.



(** Files used by the examples below: three titles, the rows of the second
    and third equal. *)
Definition demo_df : DataFrame := {| title_col := ["Alien"; "Brazil"; "Casino"] |}.
Definition demo_indices : Indices :=
  HasItems [("Alien", 0); ("Brazil", 1); ("Casino", 2)].
Definition demo_matrix : Matrix := [[1; 0]; [0; 1]; [0; 1]]%Q.
Definition demo : Snapshot :=
  (load_data (Pickled demo_df) (Pickled demo_indices) (Pickled demo_matrix)).1.

(** Two titles whose rows are the same unit vector. *)
Definition twins_df : DataFrame := {| title_col := ["Solaris"; "Stalker"] |}.
Definition twins_indices : Indices := HasItems [("Solaris", 0); ("Stalker", 1)].
Definition twins_matrix : Matrix := [[1; 0]; [1; 0]]%Q.
Definition twins : Snapshot :=
  (load_data (Pickled twins_df) (Pickled twins_indices)
     (Pickled twins_matrix)).1.

(** ** Predicates used to state further properties *)

(** A string made of white space only. *)
Fixpoint all_space (s : string) : bool :=
  match s with
  | EmptyString => true
  | String c s' => Str.isspace c && all_space s'
  end.

(** The last character of a string. *)
Fixpoint last_char (s : string) : option ascii :=
  match s with
  | EmptyString => None
  | String c EmptyString => Some c
  | String _ s' => last_char s'
  end.

(** A string that does not end with white space. *)
Definition no_trailing_space (s : string) : Prop :=
  match last_char s with
  | None => True
  | Some c => Str.isspace c = false
  end.


(** The index artifact of a table: every title with its own position. *)
Definition positions_of (titles : list string) : list (string * Z) :=
  imap (fun i t => (t, Z.of_nat i)) titles.

(** ** The application layer: values from TMDB *)

(** Values that travel between TMDB, the helpers and the views: decoded
    JSON, and the dictionaries the views build. *)
#[local] Set Warnings "-register-all".
Inductive pyval : Type :=
| PNone
| PBool (b : bool)
| PInt (z : Z)
| PFloat (q : Q)
| PStr (s : string)
| PList (l : list pyval)
| PDict (d : gmap string pyval).
#[local] Set Warnings "register-all".

(** Truth value of a value in [if v], [not v], [a and b], [a or b]. *)
Definition truthy (v : pyval) : bool :=
  match v with
  | PNone => false
  | PBool b => b
  | PInt z => negb (z =? 0)
  | PFloat q => negb (Qeq_bool q 0)
  | PStr s => match s with EmptyString => false | _ => true end
  | PList l => match l with [] => false | _ => true end
  | PDict d => bool_decide (d ≠ ∅)
  end.

(** A value, or an exception that no handler of the application catches;
    its class plays no role there. *)
Inductive outcome (A : Type) : Type :=
| Val (a : A)
| Crash.
Arguments Val {A} a.
Arguments Crash {A}.

#[global] Instance outcome_bind : MBind outcome := fun _ _ k o =>
  match o with
  | Val a => k a
  | Crash => Crash
  end.

(** [v.get(key, dflt)]; [v.get(key)] is [py_get v key PNone]. Only a
    dictionary has [get]. *)
Definition py_get (v : pyval) (key : string) (dflt : pyval) : outcome pyval :=
  match v with
  | PDict d => Val (default dflt (d !! key))
  | _ => Crash
  end.

(** [v[key]] for a string [key]. *)
Definition py_item (v : pyval) (key : string) : outcome pyval :=
  match v with
  | PDict d => match d !! key with Some x => Val x | None => Crash end
  | _ => Crash
  end.

(** [v[0]] *)
Definition py_first (v : pyval) : outcome pyval :=
  match v with
  | PList (x :: _) => Val x
  | PStr (String c _) => Val (PStr (String c EmptyString))
  | _ => Crash
  end.

(** [v[:n]] *)
Definition py_prefix (v : pyval) (n : nat) : outcome pyval :=
  match v with
  | PList l => Val (PList (take n l))
  | PStr s => Val (PStr (String.substring 0 n s))
  | _ => Crash
  end.

(** What [requests.get] hands back when it returns: the status code and
    the decoded body, if the body is JSON. *)
Record Response : Type := { status_code : Z; json : option pyval }.

Definition TMDB_BASE_URL : string := "https://api.themoviedb.org/3".
Definition TMDB_IMG_PATH : string := "https://image.tmdb.org/t/p/w780".

(** The record that [view_details] appends for a local recommendation. *)
Definition rec_entry (t : string) (p_url t_id : pyval) : pyval :=
  PDict (<["title" := PStr t]>
           (<["poster_url" := p_url]> (<["tmdb_id" := t_id]> ∅))).

(** The two keys of [st.session_state]. *)
Record SessionState : Type := { view : string; selected_movie_id : pyval }.

(** [navigate_to(view_name, movie_id)], up to its [st.rerun()]: the
    session state with which the script runs again. *)
Definition navigate_to (view_name : string) (movie_id : pyval)
    (st : SessionState) : SessionState :=
  {| view := view_name;
     selected_movie_id :=
       if truthy movie_id then movie_id else selected_movie_id st |}.

(** What [render_movie_grid] shows for one movie. *)
Record Card : Type := {
  column : nat;
  poster : pyval;
  mtit : pyval;
  mid : pyval;
  key : string
}.

Definition NO_IMAGE : string :=
  "https://via.placeholder.com/500x750?text=No+Image".

(** What the helpers depend on: the environment variable, the network,
    and the text an f-string puts for a value. Within the life of the
    caches the network answers a request the same way each time. *)
Record Env : Type := {
  TMDB_API_KEY : string;
  requests_get : string -> gmap string string -> option Response;
  format : pyval -> string
}.

Section Tmdb.

Variable env : Env.

(** [fetch_tmdb(endpoint, params)]: [None] for the default [params]. Any
    exception of the request, an error status or a body that is not JSON
    gives [None]. *)
Definition fetch_tmdb (endpoint : string)
    (params : option (gmap string string)) : pyval :=
  let params :=
    <["language" := "en-US"]>
      (<["api_key" := TMDB_API_KEY env]> (default ∅ params)) in
  match requests_get env (TMDB_BASE_URL +:+ endpoint) params with
  | None => PNone
  | Some response =>
      if (400 <=? status_code response) && (status_code response <? 600)
      then PNone
      else default PNone (json response)
  end.

Definition get_movie_details (tmdb_id : pyval) : pyval :=
  fetch_tmdb ("/movie/" +:+ format env tmdb_id) None.

Definition search_tmdb (query : string) : pyval :=
  fetch_tmdb "/search/movie"
    (Some (<["query" := query]> (<["include_adult" := "false"]> ∅))).

Definition get_poster_url (title : string) : outcome (pyval * pyval) :=
  let data := search_tmdb title in
  if truthy data then
    results ← py_get data "results" PNone;
    if truthy results then
      r ← py_item data "results";
      first ← py_first r;
      img_path ← py_get first "poster_path" PNone;
      r' ← py_item data "results";
      first' ← py_first r';
      tmdb_id ← py_get first' "id" PNone;
      Val (if truthy img_path
           then PStr (TMDB_IMG_PATH +:+ format env img_path)
           else PNone,
           tmdb_id)
    else Val (PNone, PNone)
  else Val (PNone, PNone).

(** The body of the loop of [render_movie_grid] for the movie at [idx],
    up to the widgets it creates. *)
Definition card (idx : nat) (movie : pyval) : outcome Card :=
  poster_url ← py_get movie "poster_url" PNone;
  poster ← (if truthy poster_url then Val poster_url
            else
              poster_path ← py_get movie "poster_path" PNone;
              if truthy poster_path
              then
                p ← py_item movie "poster_path";
                Val (PStr (TMDB_IMG_PATH +:+ format env p))
              else Val PNone);
  mtit ← py_get movie "title" (PStr "Untitled");
  id ← py_get movie "id" PNone;
  mid ← (if truthy id then Val id else py_get movie "tmdb_id" PNone);
  Val {| column := idx mod 6;
         poster := if truthy poster then poster else PStr NO_IMAGE;
         mtit := mtit;
         mid := mid;
         key := "btn_" +:+ format env mid +:+ "_" +:+ pretty idx |}.

(** The loop [for t in titles] of [view_details], from the list built so
    far. *)
Fixpoint rec_movies_loop (titles : list string) (rec_movies : list pyval)
  : outcome (list pyval) :=
  match titles with
  | [] => Val rec_movies
  | t :: titles' =>
      found ← get_poster_url t;
      rec_movies_loop titles'
        (if truthy found.2
         then rec_movies ++ [rec_entry t found.1 found.2]
         else rec_movies)
  end.

Variable argsort : list Q -> list nat.

(** [get_recommendations(title)] as [view_details] calls it: [title] is
    whatever TMDB sent, and [top_n] has its default. Only a string has
    [strip]; with no data the function returns before it needs one. *)
Definition get_recommendations_dyn (s : Snapshot) (title : pyval)
  : outcome (list string) :=
  match df s, tfidf_matrix s with
  | Some _, Some _ =>
      match title with
      | PStr t =>
          match get_recommendations argsort s t 10 with
          | Ok titles => Val titles
          | Raise _ => Crash
          end
      | _ => Crash
      end
  | _, _ => Val []
  end.

(** The value of [rec_movies] in [view_details] when the grid is about to
    be shown. *)
Definition rec_movies (s : Snapshot) (details mid : pyval) : outcome pyval :=
  title ← py_item details "title";
  titles ← get_recommendations_dyn s title;
  match titles with
  | _ :: _ =>
      l ← rec_movies_loop titles [];
      Val (PList l)
  | [] =>
      let tmdb_recs :=
        fetch_tmdb ("/movie/" +:+ format env mid +:+ "/recommendations") None in
      if truthy tmdb_recs then py_get tmdb_recs "results" (PList [])
      else Val (PList [])
  end.

(** What [view_details] passes to [render_movie_grid]: [rec_movies[:12]],
    or nothing when [rec_movies] is empty. *)
Definition shown_movies (s : Snapshot) (details mid : pyval)
  : outcome (option pyval) :=
  recs ← rec_movies s details mid;
  if truthy recs
  then
    shown ← py_prefix recs 12;
    Val (Some shown)
  else Val None.

End Tmdb.

(** ** Characters of a string *)

(** Whether a character occurs in a string. *)
Fixpoint occurs (c : ascii) (s : string) : bool :=
  match s with
  | EmptyString => false
  | String a s' => bool_decide (a = c) || occurs c s'
  end.

(** What follows the last occurrence of a character. *)
Fixpoint after_last (c : ascii) (s : string) : string :=
  match s with
  | EmptyString => EmptyString
  | String a s' =>
      if occurs c s' then after_last c s'
      else if bool_decide (a = c) then s' else s
  end.

(** A run of navigations. *)
Definition navigations (navs : list (string * pyval)) (st : SessionState)
  : SessionState :=
  foldl (fun st nav => navigate_to nav.1 nav.2 st) st navs.

(** ** A network for the examples *)

Definition demo_format (v : pyval) : string :=
  match v with
  | PStr s => s
  | PInt z => pretty z
  | _ => "None"
  end.

Definition demo_hit (id : Z) (path : string) : pyval :=
  PDict (<["id" := PInt id]> (<["poster_path" := PStr path]> ∅)).

Definition demo_answer (results : list pyval) : option Response :=
  Some {| status_code := 200;
          json := Some (PDict (<["results" := PList results]> ∅)) |}.

(** A search for "Casino" has one hit, a search for "Brazil" none, any
    other search is answered 404, and requests without a query fail. *)
Definition demo_requests_get (url : string) (params : gmap string string)
  : option Response :=
  match params !! "query" with
  | Some q =>
      if decide (q = "Casino") then demo_answer [demo_hit 524 "/casino.jpg"]
      else if decide (q = "Brazil") then demo_answer []
      else Some {| status_code := 404; json := None |}
  | None => None
  end.

Definition demo_env : Env :=
  {| TMDB_API_KEY := "k";
     requests_get := demo_requests_get;
     format := demo_format |}.
Definition demo_details (t : string) : pyval :=
  PDict (<["title" := PStr t]> ∅).

(** * Properties *)

(** ** Normalisation *)

Module StrFacts.
Import Str.

Lemma isspace_lower_char c : isspace (lower_char c) = isspace c.
Proof. by destruct c as [[] [] [] [] [] [] [] []]. Qed.

Lemma lower_char_idem c : lower_char (lower_char c) = lower_char c.
Proof. by destruct c as [[] [] [] [] [] [] [] []]. Qed.

Lemma lower_idem s : lower (lower s) = lower s.
Proof. induction s as [|c s IH]; simpl; [done|]. by rewrite lower_char_idem, IH. Qed.

Lemma lstrip_lower s : lstrip (lower s) = lower (lstrip s).
Proof.
  induction s as [|c s IH]; simpl; [done|].
  rewrite isspace_lower_char. by destruct (isspace c).
Qed.

Lemma rstrip_lower s : rstrip (lower s) = lower (rstrip s).
Proof.
  induction s as [|c s IH]; simpl; [done|].
  rewrite IH, isspace_lower_char.
  destruct (rstrip s); simpl; [by destruct (isspace c)|done].
Qed.

Lemma strip_lower s : strip (lower s) = lower (strip s).
Proof. unfold strip. by rewrite lstrip_lower, rstrip_lower. Qed.

Lemma lstrip_no_leading_space s : no_leading_space (lstrip s).
Proof.
  induction s as [|c s IH]; simpl; [done|].
  destruct (isspace c) eqn:E; [done|]. exact E.
Qed.

Lemma lstrip_fixed s : no_leading_space s -> lstrip s = s.
Proof. destruct s as [|c s]; simpl; [done|]. by intros ->. Qed.

Lemma rstrip_no_leading_space s :
  no_leading_space s -> no_leading_space (rstrip s).
Proof.
  destruct s as [|c s]; simpl; [done|]. intros E.
  destruct (rstrip s); simpl; [by rewrite E|done].
Qed.

Lemma rstrip_idem s : rstrip (rstrip s) = rstrip s.
Proof.
  induction s as [|c s IH]; simpl; [done|].
  destruct (rstrip s) as [|c' r] eqn:E.
  - destruct (isspace c) eqn:Ec; simpl; [done|]. by rewrite Ec.
  - change (rstrip (String c (String c' r))) with
      (match rstrip (String c' r) with
       | EmptyString =>
           if isspace c then EmptyString else String c EmptyString
       | r' => String c r'
       end).
    by rewrite IH.
Qed.

Lemma strip_idem s : strip (strip s) = strip s.
Proof.
  unfold strip.
  rewrite (lstrip_fixed (rstrip (lstrip s))).
  - apply rstrip_idem.
  - apply rstrip_no_leading_space, lstrip_no_leading_space.
Qed.

End StrFacts.

Lemma norm_title_idem t : norm_title (norm_title t) = norm_title t.
Proof.
  unfold norm_title.
  by rewrite StrFacts.strip_lower, StrFacts.strip_idem, StrFacts.lower_idem.
Qed.

(** ** The title index *)

Lemma title_to_idx_loop_app l1 l2 init :
  title_to_idx_loop (l1 ++ l2) init
  = title_to_idx_loop l2 (title_to_idx_loop l1 init).
Proof. unfold title_to_idx_loop. apply fold_left_app. Qed.

Lemma title_to_idx_loop_other l init key :
  (forall k v, (k, v) ∈ l -> norm_title k ≠ key) ->
  title_to_idx_loop l init !! key = init !! key.
Proof.
  revert init. induction l as [|[k v] l IH]; intros init H; simpl; [done|].
  rewrite IH.
  - rewrite lookup_insert_ne; [done|]. apply (H k v). left.
  - intros k' v' Hin. apply (H k' v'). by right.
Qed.

Lemma title_to_idx_loop_last pre k v post init :
  (forall k' v', (k', v') ∈ post -> norm_title k' ≠ norm_title k) ->
  title_to_idx_loop (pre ++ (k, v) :: post) init !! norm_title k = Some v.
Proof.
  intros H. rewrite title_to_idx_loop_app. simpl.
  rewrite title_to_idx_loop_other by done.
  apply lookup_insert_eq.
Qed.

Lemma title_to_idx_loop_is_Some l init k v :
  (k, v) ∈ l -> is_Some (title_to_idx_loop l init !! norm_title k).
Proof.
  revert init k v. induction l as [|[k' v'] l IH]; intros init k v Hin.
  - by apply elem_of_nil in Hin.
  - apply elem_of_cons in Hin as [Heq|Hin]; simpl.
    + injection Heq as <- <-.
      destruct (decide (Exists (fun kv => norm_title kv.1 = norm_title k) l))
        as [Hex|Hnex].
      * apply Exists_exists in Hex as [[k2 v2] [Hin2 Hk2]]. simpl in Hk2.
        rewrite <- Hk2. by apply (IH _ k2 v2).
      * rewrite title_to_idx_loop_other.
        { rewrite lookup_insert_eq. by eexists. }
        intros k2 v2 Hin2 Hk2. apply Hnex, Exists_exists.
        by exists (k2, v2).
    + by apply (IH _ k v).
Qed.

(** ** Slices *)

Section Slices.
Context {A : Type}.
Implicit Types l : list A.

Lemma slice_take_drop l start stop :
  exists a n, slice l start stop = take n (drop a l).
Proof. unfold slice. eauto. Qed.

(** [l[1:n+1]] for [n >= -1] is the first [n] elements of the tail. *)
Lemma slice_1_succ l n :
  -1 <= n -> slice l 1 (n + 1) = take (Z.to_nat n) (tail l).
Proof.
  intros Hn. unfold slice, clip_index.
  destruct l as [|x l]; simpl length.
  - simpl. by rewrite !take_nil.
  - replace (1 <? 0) with false by done.
    destruct (Z.ltb_spec (n + 1) 0); [lia|].
    replace (Z.to_nat (1 `min` Z.of_nat (S (length l)))) with 1%nat by lia.
    simpl drop. simpl tail.
    destruct (decide (n <= Z.of_nat (length l))).
    + f_equal. lia.
    + rewrite (take_ge l (Z.to_nat n)) by lia. apply take_ge. lia.
Qed.

Lemma slice_1_length l n :
  -1 <= n -> length (slice l 1 (n + 1)) = (Z.to_nat n `min` (length l - 1))%nat.
Proof.
  intros Hn. rewrite slice_1_succ by done.
  rewrite length_take. destruct l; simpl; lia.
Qed.

Lemma slice_elem_of l start stop x : x ∈ slice l start stop -> x ∈ l.
Proof.
  destruct (slice_take_drop l start stop) as (a & n & ->).
  intros H. by apply (subseteq_drop a l), (subseteq_take n).
Qed.



End Slices.

(** ** Sorting *)

Lemma StronglySorted_weaken {A : Type} (R1 R2 : relation A) (l : list A) :
  (forall x y, R1 x y -> R2 x y) ->
  StronglySorted R1 l -> StronglySorted R2 l.
Proof.
  intros HR. induction 1 as [|x l Hl IH Hx]; constructor; [done|].
  eapply Forall_impl; [exact Hx|]. auto.
Qed.

Lemma ascending_stable_ascending scores i j :
  ascending_stable scores i j -> ascending scores i j.
Proof. unfold ascending. intros [H|[H _]]; lra. Qed.

Lemma argsort_stable_spec_weaken argsort :
  argsort_stable_spec argsort -> argsort_spec argsort.
Proof.
  intros [Hp Hs]. split; [done|]. intros scores.
  eapply StronglySorted_weaken; [|apply Hs].
  apply ascending_stable_ascending.
Qed.

Section Argsort.
Variable argsort : list Q -> list nat.
Hypothesis Hspec : argsort_spec argsort.

Lemma argsort_length scores : length (argsort scores) = length scores.
Proof.
  rewrite (Permutation_length (argsort_perm _ Hspec scores)).
  apply length_seq.
Qed.

Lemma argsort_lt scores i :
  i ∈ argsort scores -> (i < length scores)%nat.
Proof.
  rewrite (argsort_perm _ Hspec scores), elem_of_seq. lia.
Qed.

Lemma sim_indices_lt scores top_n i :
  i ∈ sim_indices argsort scores top_n -> (i < length scores)%nat.
Proof.
  intros H%slice_elem_of. apply argsort_lt. by rewrite elem_of_reverse in H.
Qed.


End Argsort.


(** The insertion sort meets the stable contract. *)

Lemma insert_by_perm scores i l : insert_by scores i l ≡ₚ i :: l.
Proof.
  induction l as [|j l IH]; simpl; [done|].
  destruct (Qle_bool _ _); [done|].
  rewrite IH. apply perm_swap.
Qed.

Lemma insert_by_sorted scores i l :
  StronglySorted (ascending_stable scores) l ->
  Forall (fun j => (i < j)%nat) l ->
  StronglySorted (ascending_stable scores) (insert_by scores i l).
Proof.
  induction 1 as [|j l Hl IH Hj]; intros Hlt; simpl.
  - repeat constructor.
  - apply Forall_cons in Hlt as [Hij Hlt].
    destruct (Qle_bool (score scores i) (score scores j)) eqn:E.
    + apply Qle_bool_iff in E.
      assert (ascending_stable scores i j) as Hfirst.
      { unfold ascending_stable. apply Qle_lteq in E as [E|E]; auto. }
      constructor; [by constructor|]. constructor; [done|].
      rewrite Forall_forall in Hj, Hlt |- *. intros x Hx.
      specialize (Hj x Hx). specialize (Hlt x Hx).
      unfold ascending_stable in *.
      destruct Hj as [Hj|[Hj _]].
      * left. lra.
      * apply Qle_lteq in E as [E|E]; [left; lra|right; split; [lra|done]].
    + assert (score scores j < score scores i)%Q as Hji.
      { apply Qnot_le_lt. intros H%Qle_bool_iff. congruence. }
      constructor; [by apply IH|].
      rewrite (insert_by_perm scores i l). constructor; [by left|done].
Qed.

Lemma argsort_stable_seq scores a n :
  foldr (insert_by scores) [] (seq a n) ≡ₚ seq a n
  /\ StronglySorted (ascending_stable scores)
       (foldr (insert_by scores) [] (seq a n)).
Proof.
  revert a. induction n as [|n IH]; intros a; simpl.
  - split; [done|constructor].
  - destruct (IH (S a)) as [Hp Hs]. split.
    + by rewrite insert_by_perm, Hp.
    + apply insert_by_sorted; [done|].
      rewrite Hp. apply Forall_forall. intros j Hj%elem_of_seq. lia.
Qed.

Lemma argsort_stable_correct : argsort_stable_spec argsort_stable.
Proof.
  split; intros scores; apply (argsort_stable_seq scores 0 (length scores)).
Qed.


(** ** The query, step by step *)

Lemma score_sim_scores m sig i r :
  m !! i = Some r -> score (sim_scores m sig) i = dot r sig.
Proof.
  intros H. unfold score, sim_scores. apply nth_lookup_Some.
  change (map (fun r => dot r sig) m) with ((fun r => dot r sig) <$> m).
  by rewrite list_lookup_fmap, H.
Qed.

Lemma length_sim_scores m sig : length (sim_scores m sig) = length m.
Proof. apply length_map. Qed.

Lemma iloc_Ok_inv col positions l :
  iloc col positions = Ok l ->
  Forall2 (fun i t => col !! i = Some t) positions l.
Proof.
  unfold iloc. destruct (mapM _ positions) as [l'|] eqn:E; [|done].
  intros [= <-]. by apply mapM_Some_1.
Qed.

Lemma iloc_total col positions :
  Forall (fun i => (i < length col)%nat) positions ->
  exists l, iloc col positions = Ok l
            /\ Forall2 (fun i t => col !! i = Some t) positions l.
Proof.
  intros H. unfold iloc.
  destruct (mapM_is_Some_2 (fun i => col !! i) positions) as [l Hl].
  - eapply Forall_impl; [exact H|]. intros i Hi. by apply lookup_lt_is_Some_2.
  - rewrite Hl. exists l. split; [done|]. by apply mapM_Some_1.
Qed.

Section QueryFacts.
Variable argsort : list Q -> list nat.

Lemma get_recommendations_resolved d t2i m title top_n idx sig :
  t2i !! norm_title title = Some idx ->
  getrow m idx = Ok sig ->
  get_recommendations argsort
    {| df := Some d; title_to_idx := Some t2i; tfidf_matrix := Some m |}
    title top_n
  = iloc (title_col d) (sim_indices argsort (sim_scores m sig) top_n).
Proof. intros Hidx Hsig. unfold get_recommendations. simpl. by rewrite Hidx, Hsig. Qed.

Lemma get_recommendations_not_found s t2i title top_n :
  title_to_idx s = Some t2i ->
  t2i !! norm_title title = None ->
  get_recommendations argsort s title top_n = Ok [].
Proof.
  intros Ht Hnone. unfold get_recommendations. rewrite Ht, Hnone.
  by destruct (df s), (tfidf_matrix s).
Qed.

Lemma get_recommendations_no_data s title top_n :
  df s = None \/ tfidf_matrix s = None ->
  get_recommendations argsort s title top_n = Ok [].
Proof.
  unfold get_recommendations. intros [-> | ->]; [done|]. by destruct (df s).
Qed.

Lemma get_recommendations_length s title top_n l :
  -1 <= top_n ->
  get_recommendations argsort s title top_n = Ok l ->
  (length l <= Z.to_nat (Z.max top_n 0))%nat.
Proof.
  intros Hn. unfold get_recommendations.
  destruct (df s) as [d|]; [|intros [= <-]; simpl; lia].
  destruct (tfidf_matrix s) as [m|]; [|intros [= <-]; simpl; lia].
  destruct (title_to_idx s) as [t2i|]; [|done].
  destruct (t2i !! norm_title title) as [idx|]; [|intros [= <-]; simpl; lia].
  destruct (getrow m idx) as [sig|]; [|done]. simpl.
  intros H%iloc_Ok_inv%Forall2_length. rewrite <- H.
  unfold sim_indices. rewrite slice_1_length by done. lia.
Qed.


End QueryFacts.

(** ** [load_data], case by case *)

Lemma load_data_cases fdf findices fmatrix :
  (load_data fdf findices fmatrix).1 = no_data
  \/ exists d indices m,
       fdf = Pickled d /\ findices = Pickled indices /\ fmatrix = Pickled m
       /\ load_data fdf findices fmatrix
          = ({| df := Some d;
                title_to_idx := Some (build_title_to_idx indices);
                tfidf_matrix := Some m |}, []).
Proof.
  destruct fdf as [| |d]; [by left..|].
  destruct findices as [| |indices]; [by left..|].
  destruct fmatrix as [| |m]; [by left..|].
  right. by exists d, indices, m.
Qed.

(** * The claims *)

(** ** Normalisation (C7) *)

(** C7. Normalising is idempotent; ["  The Matrix "] and ["the matrix"]
    normalise to the same key; the key stored by [load_data] for an entry
    [k] and the key looked up by [get_recommendations] for a query [t] are
    both [norm_title], so a query that normalises like a loaded entry is
    found in the index and is answered like that entry. *)
Theorem normalization_idempotent_uniform :
  (forall t, norm_title (norm_title t) = norm_title t)
  /\ norm_title "  The Matrix " = norm_title "the matrix"
  /\ (forall indices k v t,
        (k, v) ∈ iterable indices ->
        norm_title t = norm_title k ->
        is_Some (build_title_to_idx indices !! norm_title t)
        /\ forall argsort s top_n,
             get_recommendations argsort s t top_n
             = get_recommendations argsort s k top_n).
Proof.
  split; [exact norm_title_idem|]. split; [by vm_compute|].
  intros indices k v t Hin Hnorm. split.
  - rewrite Hnorm. by apply (title_to_idx_loop_is_Some _ _ k v).
  - intros argsort s top_n. unfold get_recommendations. by rewrite Hnorm.
Qed.

Lemma normalization_idempotent_uniform_witness :
  is_Some (build_title_to_idx demo_indices !! norm_title "  brazil  ").
Proof.
  apply (proj2 (proj2 normalization_idempotent_uniform)
           demo_indices "Brazil" 1 "  brazil  ").
  - vm_compute. right. left.
  - by vm_compute.
Defined.

(** ** Duplicate keys (C9) *)

(** C9. When two entries of the index artifact normalise to the same key
    and no entry after the second does, the index built by [load_data] maps
    the key to the position of the second. *)
Theorem last_write_wins d indices m pre k1 v1 mid k2 v2 post :
  iterable indices = pre ++ (k1, v1) :: mid ++ (k2, v2) :: post ->
  norm_title k1 = norm_title k2 ->
  (forall k v, (k, v) ∈ post -> norm_title k ≠ norm_title k2) ->
  exists t2i,
    title_to_idx (load_data (Pickled d) (Pickled indices) (Pickled m)).1
    = Some t2i
    /\ t2i !! norm_title k1 = Some v2.
Proof.
  intros Hit Hk Hpost. eexists. split; [done|].
  unfold build_title_to_idx. rewrite Hit, Hk.
  replace (pre ++ (k1, v1) :: mid ++ (k2, v2) :: post)
    with ((pre ++ (k1, v1) :: mid) ++ (k2, v2) :: post)
    by (by rewrite <- app_assoc).
  by apply title_to_idx_loop_last.
Qed.

Lemma last_write_wins_witness :
  exists t2i,
    title_to_idx
      (load_data (Pickled demo_df)
         (Pickled (HasItems [("Heat", 4); ("Ran", 7); (" HEAT ", 9); ("Big", 2)]))
         (Pickled demo_matrix)).1 = Some t2i
    /\ t2i !! norm_title "Heat" = Some 9.
Proof.
  apply (last_write_wins demo_df _ demo_matrix
           [] "Heat" 4 [("Ran", 7)] " HEAT " 9 [("Big", 2)]).
  - reflexivity.
  - by vm_compute.
  - intros k v [= -> ->]%list_elem_of_singleton. by vm_compute.
Defined.

(** ** Unknown titles and failed loads (C5, C10) *)

(** C5. Against the globals that [load_data] returned, a title whose
    normalised form is not a key of the title index gets the empty list,
    as a value. *)
Theorem not_found_contract argsort fdf findices fmatrix title top_n :
  (forall t2i,
      title_to_idx (load_data fdf findices fmatrix).1 = Some t2i ->
      t2i !! norm_title title = None) ->
  get_recommendations argsort (load_data fdf findices fmatrix).1 title top_n
  = Ok [].
Proof.
  intros H.
  destruct (load_data_cases fdf findices fmatrix)
    as [->|(d & indices & m & _ & _ & _ & Hload)].
  - by apply get_recommendations_no_data; left.
  - rewrite Hload in *. simpl in *.
    by eapply get_recommendations_not_found; [|apply H].
Qed.

Lemma not_found_contract_witness :
  get_recommendations argsort_stable demo "definitely-not-a-title-xyz123" 5
  = Ok [].
Proof.
  apply (not_found_contract argsort_stable (Pickled demo_df)
           (Pickled demo_indices) (Pickled demo_matrix)).
  intros t2i [= <-]. by vm_compute.
Defined.

(** C10. When [df] or [tfidf_matrix] is [None], as after a failed load,
    every query returns the empty list. *)
Theorem degraded_load argsort s title top_n :
  df s = None \/ tfidf_matrix s = None ->
  get_recommendations argsort s title top_n = Ok [].
Proof. apply get_recommendations_no_data. Qed.

Lemma degraded_load_witness :
  get_recommendations argsort_stable
    (load_data Absent (Pickled demo_indices) (Pickled demo_matrix)).1
    "Alien" 10 = Ok [].
Proof. apply degraded_load. left. reflexivity. Defined.

(** ** Determinism (C8) *)


(** ** Loading (C4) *)



(** ** Ranking (C6, C2) *)






(** ** Truncation (C3) *)

(** C3, as claimed, fails: [top_n = -2] makes the stop of the slice [-1],
    which counts from the end, and one title is returned where the bound
    is zero. *)
Lemma topn_bound_counterexample :
  get_recommendations argsort_stable demo "Alien" (-2) = Ok ["Casino"]
  /\ ~ (length ["Casino"] <= Z.to_nat (Z.max (-2) 0))%nat.
Proof. split; [by vm_compute|simpl; lia]. Qed.

(** C3, amended. For [top_n >= -1]: a returned list has at most
    [max top_n 0] titles (so none for [top_n] 0 or -1); and when the title
    resolves to a row and the table is as long as the matrix, the call
    returns the titles at the first [top_n] positions that follow the
    top-ranked one, [min top_n (rows - 1)] of them, which is all of them
    once [top_n] reaches [rows - 1]. *)
Theorem topn_bound argsort s title top_n :
  argsort_spec argsort ->
  -1 <= top_n ->
  (forall l,
      get_recommendations argsort s title top_n = Ok l ->
      (length l <= Z.to_nat (Z.max top_n 0))%nat)
  /\ (forall d t2i m idx sig,
        s = {| df := Some d; title_to_idx := Some t2i;
               tfidf_matrix := Some m |} ->
        t2i !! norm_title title = Some idx ->
        getrow m idx = Ok sig ->
        (length m <= length (title_col d))%nat ->
        exists l,
          get_recommendations argsort s title top_n = Ok l
          /\ length l = (Z.to_nat top_n `min` (length m - 1))%nat
          /\ Forall2 (fun i t => title_col d !! i = Some t)
               (take (Z.to_nat top_n)
                  (tail (reverse (argsort (sim_scores m sig)))))
               l).
Proof.
  intros Hspec Hn. split.
  - intros l. by apply get_recommendations_length.
  - intros d t2i m idx sig -> Hidx Hsig Hlen.
    rewrite (get_recommendations_resolved argsort d t2i m title top_n idx sig
               Hidx Hsig).
    destruct (iloc_total (title_col d)
                (sim_indices argsort (sim_scores m sig) top_n)) as (l & Hl & Hf).
    { apply Forall_forall. intros i Hi%(sim_indices_lt _ Hspec).
      rewrite length_sim_scores in Hi. lia. }
    exists l. split; [done|]. split.
    + rewrite <- (Forall2_length _ _ _ Hf). unfold sim_indices.
      rewrite slice_1_length by done.
      by rewrite length_reverse, (argsort_length _ Hspec), length_sim_scores.
    + unfold sim_indices in Hf. by rewrite slice_1_succ in Hf.
Qed.

Lemma topn_bound_witness :
  (length ["Casino"] <= Z.to_nat (Z.max 1 0))%nat
  /\ exists l,
       get_recommendations argsort_stable demo "Alien" 1 = Ok l
       /\ length l = (Z.to_nat 1 `min` (length demo_matrix - 1))%nat
       /\ Forall2 (fun i t => title_col demo_df !! i = Some t)
            (take (Z.to_nat 1)
               (tail (reverse
                  (argsort_stable (sim_scores demo_matrix [1; 0]%Q)))))
            l.
Proof.
  destruct (topn_bound argsort_stable demo "Alien" 1) as [Hbound Hexact].
  - apply argsort_stable_spec_weaken, argsort_stable_correct.
  - lia.
  - split.
    + apply Hbound. by vm_compute.
    + apply (Hexact demo_df (build_title_to_idx demo_indices) demo_matrix 0).
      * reflexivity.
      * by vm_compute.
      * by vm_compute.
      * simpl. lia.
Defined.

(** ** Self-exclusion (C1) *)

(** C1 fails on the code. The slice drops the top-ranked position, not the
    position of the query: with two equal rows the scores tie, and
    whichever of the two [argsort] ranks first, the query for the other
    title returns that title itself. *)
Theorem self_exclusion_violated argsort :
  argsort_spec argsort ->
  get_recommendations argsort twins "Solaris" 10 = Ok ["Solaris"]
  \/ get_recommendations argsort twins "Stalker" 10 = Ok ["Stalker"].
Proof.
  intros [Hperm _].
  set (scores := sim_scores twins_matrix [1; 0]%Q).
  assert (get_recommendations argsort twins "Solaris" 10
          = iloc (title_col twins_df) (sim_indices argsort scores 10)) as H0.
  { apply (get_recommendations_resolved argsort twins_df
             (build_title_to_idx twins_indices) twins_matrix "Solaris" 10 0);
      by vm_compute. }
  assert (get_recommendations argsort twins "Stalker" 10
          = iloc (title_col twins_df) (sim_indices argsort scores 10)) as H1.
  { apply (get_recommendations_resolved argsort twins_df
             (build_title_to_idx twins_indices) twins_matrix "Stalker" 10 1);
      by vm_compute. }
  rewrite H0, H1. unfold sim_indices.
  specialize (Hperm scores). symmetry in Hperm.
  apply Permutation_length_2_inv in Hperm as [-> | ->]; [left|right];
    by vm_compute.
Qed.

Lemma self_exclusion_violated_witness :
  get_recommendations argsort_stable twins "Solaris" 10 = Ok ["Solaris"]
  \/ get_recommendations argsort_stable twins "Stalker" 10 = Ok ["Stalker"].
Proof.
  apply (self_exclusion_violated argsort_stable).
  apply argsort_stable_spec_weaken, argsort_stable_correct.
Defined.

(** * Further properties *)

(** ** Keys of the title index *)

Lemma append_cons c s t : String c s +:+ t = String c (s +:+ t).
Proof. reflexivity. Qed.

Lemma lstrip_all_space ws s :
  all_space ws = true -> Str.lstrip (ws +:+ s) = Str.lstrip s.
Proof.
  induction ws as [|c ws IH]; [done|]. simpl all_space.
  intros [Hc Hws]%andb_prop. rewrite append_cons. simpl.
  rewrite Hc. by apply IH.
Qed.

Lemma lstrip_all_space_nil ws :
  all_space ws = true -> Str.lstrip ws = EmptyString.
Proof.
  induction ws as [|c ws IH]; [done|]. simpl.
  intros [-> Hws]%andb_prop. by apply IH.
Qed.

Lemma rstrip_all_space_nil ws :
  all_space ws = true -> Str.rstrip ws = EmptyString.
Proof.
  induction ws as [|c ws IH]; [done|]. simpl.
  intros [-> Hws]%andb_prop. by rewrite IH.
Qed.

Lemma rstrip_all_space s ws :
  all_space ws = true -> Str.rstrip (s +:+ ws) = Str.rstrip s.
Proof.
  intros Hws. induction s as [|c s IH].
  - by apply rstrip_all_space_nil.
  - rewrite append_cons. simpl. by rewrite IH.
Qed.

Lemma strip_all_space_r s ws :
  all_space ws = true -> Str.strip (s +:+ ws) = Str.strip s.
Proof.
  intros Hws. unfold Str.strip. induction s as [|c s IH].
  - change (EmptyString +:+ ws) with ws. by rewrite lstrip_all_space_nil.
  - rewrite append_cons. simpl. destruct (Str.isspace c); [done|].
    by rewrite <- append_cons, rstrip_all_space.
Qed.

Lemma strip_padding ws1 s ws2 :
  all_space ws1 = true -> all_space ws2 = true ->
  Str.strip (ws1 +:+ s +:+ ws2) = Str.strip s.
Proof.
  intros H1 H2. rewrite <- (strip_all_space_r s ws2 H2).
  unfold Str.strip. by rewrite lstrip_all_space.
Qed.

Lemma last_char_lower s :
  last_char (Str.lower s) = Str.lower_char <$> last_char s.
Proof.
  induction s as [|c s IH]; [done|].
  destruct s as [|c' s]; [done|]. exact IH.
Qed.

Lemma rstrip_no_trailing_space s : no_trailing_space (Str.rstrip s).
Proof.
  unfold no_trailing_space. induction s as [|c s IH]; simpl; [done|].
  destruct (Str.rstrip s) as [|c' r] eqn:E.
  - destruct (Str.isspace c) eqn:Ec; simpl; [done|exact Ec].
  - exact IH.
Qed.

(** X1. A key is trimmed and in lower case: [norm_title t] neither begins
    nor ends with white space, and [lower] leaves it unchanged. *)
Theorem norm_title_trimmed t :
  no_leading_space (norm_title t)
  /\ no_trailing_space (norm_title t)
  /\ Str.lower (norm_title t) = norm_title t.
Proof.
  unfold norm_title. split; [|split].
  - rewrite <- StrFacts.strip_lower. unfold Str.strip.
    apply StrFacts.rstrip_no_leading_space, StrFacts.lstrip_no_leading_space.
  - rewrite <- StrFacts.strip_lower. apply rstrip_no_trailing_space.
  - apply StrFacts.lower_idem.
Qed.

(** X2. White space around a title and the case of its letters do not
    matter: if [t1] and [t2] have the same lower-case form, then [t1]
    padded with white space on either side has the key of [t2]. *)
Theorem norm_title_insensitive ws1 ws2 t1 t2 :
  all_space ws1 = true -> all_space ws2 = true ->
  Str.lower t1 = Str.lower t2 ->
  norm_title (ws1 +:+ t1 +:+ ws2) = norm_title t2.
Proof.
  intros H1 H2 Hl. unfold norm_title. rewrite strip_padding by done.
  by rewrite <- !StrFacts.strip_lower, Hl.
Qed.

Lemma norm_title_insensitive_witness :
  norm_title ("  " +:+ "The MATRIX" +:+ " ") = norm_title "the Matrix".
Proof. by apply norm_title_insensitive; vm_compute. Defined.

Lemma title_to_idx_loop_lookup_inv items init key v :
  title_to_idx_loop items init !! key = Some v ->
  init !! key = Some v \/ exists k, (k, v) ∈ items /\ norm_title k = key.
Proof.
  revert init. induction items as [|[k v0] items IH]; intros init; simpl.
  - by left.
  - intros [H|(k' & Hin & Hk)]%IH.
    + destruct (decide (norm_title k = key)) as [<-|Hne].
      * rewrite lookup_insert_eq in H. injection H as ->.
        right. exists k. split; [left|done].
      * rewrite lookup_insert_ne in H by done. by left.
    + right. exists k'. split; [by right|done].
Qed.

(** X3. Every entry of the title index comes from the artifact: a key
    that is present is in normal form and is the normalised title of an
    entry of the artifact that carries the stored position. *)
Theorem title_index_sound indices key v :
  build_title_to_idx indices !! key = Some v ->
  norm_title key = key
  /\ exists k, (k, v) ∈ iterable indices /\ norm_title k = key.
Proof.
  intros [H|(k & Hin & Hk)]%title_to_idx_loop_lookup_inv.
  - by rewrite lookup_empty in H.
  - split; [|by exists k]. rewrite <- Hk. apply norm_title_idem.
Qed.

Lemma title_index_sound_witness :
  norm_title "brazil" = "brazil"
  /\ exists k, (k, 1) ∈ iterable demo_indices /\ norm_title k = "brazil".
Proof. apply title_index_sound. by vm_compute. Defined.

Lemma title_to_idx_loop_dom items init :
  dom (title_to_idx_loop items init)
  = list_to_set ((fun kv => norm_title kv.1) <$> items) ∪ dom init.
Proof.
  revert init. induction items as [|[k v] items IH]; intros init; simpl.
  - by rewrite (left_id_L ∅ (∪)).
  - rewrite IH, dom_insert_L, (assoc_L (∪)).
    by rewrite (comm_L (∪) (list_to_set _) {[norm_title k]}).
Qed.

Lemma size_list_to_set_le (l : list string) :
  (size (list_to_set l : gset string) <= length l)%nat
  /\ (size (list_to_set l : gset string) = length l <-> NoDup l).
Proof.
  induction l as [|x l [IHle IHeq]]; simpl.
  - split; [done|]. split; [constructor|done].
  - rewrite NoDup_cons. destruct (decide (x ∈ l)) as [Hin|Hnin].
    + rewrite (subseteq_union_1_L ({[x]} : gset string) (list_to_set l))
        by by apply singleton_subseteq_l, elem_of_list_to_set.
      split; [lia|]. split; [lia|]. by intros [? _].
    + rewrite size_union
        by by apply disjoint_singleton_l; rewrite elem_of_list_to_set.
      rewrite size_singleton.
      split; [lia|]. rewrite <- IHeq. split; [intros; split; [done|lia]|].
      intros [_ ?]. lia.
Qed.

(** X4. The title index has at most as many keys as the artifact has
    entries, and exactly as many if and only if no two entries normalise
    to the same key. *)
Theorem title_index_size indices :
  let keys := (fun kv => norm_title kv.1) <$> iterable indices in
  (size (build_title_to_idx indices) <= length (iterable indices))%nat
  /\ (size (build_title_to_idx indices) = length (iterable indices)
      <-> NoDup keys).
Proof.
  intros keys.
  assert (size (build_title_to_idx indices)
          = size (list_to_set keys : gset string)) as ->.
  { rewrite <- size_dom. unfold build_title_to_idx.
    by rewrite title_to_idx_loop_dom, dom_empty_L, (right_id_L ∅ (∪)). }
  replace (length (iterable indices)) with (length keys)
    by apply length_fmap.
  apply size_list_to_set_le.
Qed.

(** ** Which positions a query returns *)

Lemma slice_sublist {A : Type} (l : list A) start stop :
  slice l start stop `sublist_of` l.
Proof.
  destruct (slice_take_drop l start stop) as (a & n & ->).
  etrans; [apply sublist_take|apply sublist_drop].
Qed.



Lemma iloc_take col positions l k :
  iloc col positions = Ok l ->
  iloc col (take k positions) = Ok (take k l).
Proof.
  intros H%iloc_Ok_inv. unfold iloc.
  by rewrite (mapM_Some_2 _ _ _ (Forall2_take _ _ _ k H)).
Qed.

Section Positions.
Variable argsort : list Q -> list nat.
Hypothesis Hspec : argsort_spec argsort.

Lemma argsort_NoDup scores : NoDup (argsort scores).
Proof. rewrite (argsort_perm _ Hspec scores). apply NoDup_seq. Qed.

Lemma ranking_NoDup scores : NoDup (reverse (argsort scores)).
Proof. rewrite reverse_Permutation. apply argsort_NoDup. Qed.

Lemma sim_indices_NoDup scores top_n :
  NoDup (sim_indices argsort scores top_n).
Proof.
  eapply sublist_NoDup; [apply ranking_NoDup|apply slice_sublist].
Qed.


End Positions.

(** X5. The positions behind a returned list are pairwise distinct: no
    row of the matrix is recommended twice. *)
Theorem returned_positions_distinct argsort d t2i m title top_n idx sig :
  argsort_spec argsort ->
  t2i !! norm_title title = Some idx ->
  getrow m idx = Ok sig ->
  let positions := sim_indices argsort (sim_scores m sig) top_n in
  get_recommendations argsort
    {| df := Some d; title_to_idx := Some t2i; tfidf_matrix := Some m |}
    title top_n
  = iloc (title_col d) positions
  /\ NoDup positions.
Proof.
  intros Hspec Hidx Hsig positions. split.
  - exact (get_recommendations_resolved argsort d t2i m title top_n idx sig
             Hidx Hsig).
  - by apply sim_indices_NoDup.
Qed.

Lemma returned_positions_distinct_witness :
  let positions := sim_indices argsort_stable
                     (sim_scores demo_matrix [0; 1]%Q) 10 in
  get_recommendations argsort_stable demo "Casino" 10
  = iloc (title_col demo_df) positions
  /\ NoDup positions.
Proof.
  apply (returned_positions_distinct argsort_stable demo_df
           (build_title_to_idx demo_indices) demo_matrix "Casino" 10 2).
  - apply argsort_stable_spec_weaken, argsort_stable_correct.
  - by vm_compute.
  - by vm_compute.
Defined.

(** X6. Asking for fewer titles gives a prefix: for [-1 <= n <= n'], when
    the query with [n'] returns a list, the query with [n] returns its
    first [n] titles. *)
Theorem top_n_prefix argsort s title n n' l' :
  -1 <= n -> n <= n' ->
  get_recommendations argsort s title n' = Ok l' ->
  get_recommendations argsort s title n = Ok (take (Z.to_nat n) l').
Proof.
  intros Hn Hn'. unfold get_recommendations.
  destruct (df s) as [d|]; [|by intros [= <-]; rewrite take_nil].
  destruct (tfidf_matrix s) as [m|]; [|by intros [= <-]; rewrite take_nil].
  destruct (title_to_idx s) as [t2i|]; [|done].
  destruct (t2i !! norm_title title) as [idx|];
    [|by intros [= <-]; rewrite take_nil].
  destruct (getrow m idx) as [sig|]; [|done]. simpl.
  unfold sim_indices. rewrite !slice_1_succ by lia. intros H.
  apply (iloc_take _ _ _ (Z.to_nat n)) in H.
  rewrite take_take in H.
  by replace (Z.to_nat n `min` Z.to_nat n')%nat with (Z.to_nat n) in H by lia.
Qed.

Lemma top_n_prefix_witness :
  get_recommendations argsort_stable demo "Alien" 1
  = Ok (take (Z.to_nat 1) ["Casino"; "Brazil"]).
Proof.
  apply (top_n_prefix argsort_stable demo "Alien" 1 10); [lia|lia|].
  by vm_compute.
Defined.





(** ** Index values outside or below the matrix, and short tables *)

(** X9. An index entry that points outside the matrix makes the query
    raise [IndexError], whatever [top_n] is (also for [top_n = 0]). *)
Theorem index_out_of_range_raises argsort d t2i m title top_n idx :
  t2i !! norm_title title = Some idx ->
  idx < - Z.of_nat (length m) \/ Z.of_nat (length m) <= idx ->
  get_recommendations argsort
    {| df := Some d; title_to_idx := Some t2i; tfidf_matrix := Some m |}
    title top_n
  = Raise IndexError.
Proof.
  intros Hidx Hout. unfold get_recommendations. simpl. rewrite Hidx.
  unfold getrow.
  destruct (Z.ltb_spec idx (- Z.of_nat (length m))); [done|].
  destruct (Z.leb_spec (Z.of_nat (length m)) idx); [done|]. lia.
Qed.

Lemma index_out_of_range_raises_witness :
  get_recommendations argsort_stable
    {| df := Some demo_df;
       title_to_idx := Some (build_title_to_idx (HasItems [("Dune", 3)]));
       tfidf_matrix := Some demo_matrix |}
    "dune" 0
  = Raise IndexError.
Proof.
  apply (index_out_of_range_raises argsort_stable demo_df _ demo_matrix
           "dune" 0 3).
  - by vm_compute.
  - right. simpl. lia.
Defined.

Lemma getrow_negative m idx :
  - Z.of_nat (length m) <= idx < 0 ->
  getrow m idx = getrow m (idx + Z.of_nat (length m)).
Proof.
  intros Hidx. unfold getrow.
  destruct (Z.ltb_spec idx (- Z.of_nat (length m))); [lia|].
  destruct (Z.leb_spec (Z.of_nat (length m)) idx); [lia|].
  destruct (Z.ltb_spec (idx + Z.of_nat (length m)) (- Z.of_nat (length m)));
    [lia|].
  destruct (Z.leb_spec (Z.of_nat (length m)) (idx + Z.of_nat (length m)));
    [lia|].
  destruct (Z.ltb_spec idx 0); [|lia].
  destruct (Z.ltb_spec (idx + Z.of_nat (length m)) 0); [lia|]. done.
Qed.

(** X10. A negative index entry counts rows from the end: for
    [-M <= idx < 0], with [M] the number of rows, the query answers as if
    the entry were [idx + M]. *)
Theorem negative_index_wraps argsort d t2i m title top_n idx :
  t2i !! norm_title title = Some idx ->
  - Z.of_nat (length m) <= idx < 0 ->
  get_recommendations argsort
    {| df := Some d; title_to_idx := Some t2i; tfidf_matrix := Some m |}
    title top_n
  = get_recommendations argsort
      {| df := Some d;
         title_to_idx :=
           Some (<[norm_title title := idx + Z.of_nat (length m)]> t2i);
         tfidf_matrix := Some m |}
      title top_n.
Proof.
  intros Hidx Hneg. unfold get_recommendations. simpl.
  by rewrite Hidx, lookup_insert_eq, getrow_negative.
Qed.

Lemma negative_index_wraps_witness :
  get_recommendations argsort_stable
    {| df := Some demo_df;
       title_to_idx := Some (build_title_to_idx (HasItems [("Casino", -1)]));
       tfidf_matrix := Some demo_matrix |}
    "Casino" 10
  = get_recommendations argsort_stable
      {| df := Some demo_df;
         title_to_idx :=
           Some (<[norm_title "Casino" := -1 + Z.of_nat (length demo_matrix)]>
                   (build_title_to_idx (HasItems [("Casino", -1)])));
         tfidf_matrix := Some demo_matrix |}
      "Casino" 10.
Proof.
  apply negative_index_wraps.
  - by vm_compute.
  - simpl. lia.
Defined.

(** X11. When the table is shorter than the matrix, the query raises
    [IndexError] exactly when one of the positions to return lies past
    the end of the table. *)
Theorem short_table_raises argsort d t2i m title top_n idx sig :
  t2i !! norm_title title = Some idx ->
  getrow m idx = Ok sig ->
  let positions := sim_indices argsort (sim_scores m sig) top_n in
  get_recommendations argsort
    {| df := Some d; title_to_idx := Some t2i; tfidf_matrix := Some m |}
    title top_n
  = Raise IndexError
  <-> Exists (fun i => (length (title_col d) <= i)%nat) positions.
Proof.
  intros Hidx Hsig positions.
  rewrite (get_recommendations_resolved argsort d t2i m title top_n idx sig
             Hidx Hsig).
  fold positions. unfold iloc.
  assert (Exists (fun i => (length (title_col d) <= i)%nat) positions
          <-> mapM (fun i => title_col d !! i) positions = None) as ->.
  { rewrite mapM_None, !Exists_exists.
    split; intros (i & Hin & Hi); exists i; (split; [done|]).
    - by apply lookup_ge_None.
    - by apply lookup_ge_None in Hi. }
  by destruct (mapM _ positions).
Qed.

Lemma short_table_raises_witness :
  get_recommendations argsort_stable
    {| df := Some {| title_col := ["Alien"; "Brazil"] |};
       title_to_idx := Some (build_title_to_idx demo_indices);
       tfidf_matrix := Some demo_matrix |}
    "Alien" 10
  = Raise IndexError
  <-> Exists (fun i => (length ["Alien"; "Brazil"] <= i)%nat)
        (sim_indices argsort_stable (sim_scores demo_matrix [1; 0]%Q) 10).
Proof.
  apply (short_table_raises argsort_stable
           {| title_col := ["Alien"; "Brazil"] |}
           (build_title_to_idx demo_indices) demo_matrix "Alien" 10 0).
  - by vm_compute.
  - by vm_compute.
Defined.

(** ** Negative [top_n] *)

(** X12. For [top_n <= -2] the stop of the slice counts from the end: the
    returned positions are the ranking without its first entry and
    without its last [-(top_n + 1)] entries, [max (rows + top_n) 0] of
    them. *)
Theorem negative_top_n argsort scores top_n :
  argsort_spec argsort ->
  top_n <= -2 ->
  sim_indices argsort scores top_n
  = take (Z.to_nat (Z.of_nat (length scores) + top_n))
      (tail (reverse (argsort scores))).
Proof.
  intros Hspec Hn. unfold sim_indices, slice.
  rewrite length_reverse, (argsort_length _ Hspec).
  destruct (reverse (argsort scores)) as [|h rest] eqn:Hr.
  - simpl tail. by rewrite drop_nil, !take_nil.
  - assert (length scores ≠ 0)%nat as Hlen.
    { rewrite <- (argsort_length _ Hspec scores), <- length_reverse, Hr.
      done. }
    unfold clip_index.
    destruct (Z.ltb_spec (top_n + 1) 0); [|lia].
    replace (1 <? 0) with false by done.
    replace (Z.to_nat (1 `min` Z.of_nat (length scores))) with 1%nat by lia.
    simpl. f_equal. lia.
Qed.

Lemma negative_top_n_witness :
  sim_indices argsort_stable (sim_scores demo_matrix [1; 0]%Q) (-2)
  = take (Z.to_nat (Z.of_nat (length (sim_scores demo_matrix [1; 0]%Q)) + -2))
      (tail (reverse (argsort_stable (sim_scores demo_matrix [1; 0]%Q)))).
Proof.
  apply negative_top_n.
  - apply argsort_stable_spec_weaken, argsort_stable_correct.
  - lia.
Defined.

(** ** Scores *)

Lemma dot_comm u v : (dot u v == dot v u)%Q.
Proof.
  unfold dot. revert v. induction u as [|x u IH]; intros [|y v]; simpl;
    try reflexivity.
  rewrite IH. ring.
Qed.

(** X13. Similarity is symmetric: the score of row [j] in a query for
    row [i] equals the score of row [i] in a query for row [j]. *)
Theorem similarity_symmetric (m : Matrix) i j ri rj :
  m !! i = Some ri ->
  m !! j = Some rj ->
  (score (sim_scores m ri) j == score (sim_scores m rj) i)%Q.
Proof.
  intros Hi Hj.
  rewrite (score_sim_scores m ri j rj Hj), (score_sim_scores m rj i ri Hi).
  apply dot_comm.
Qed.

Lemma similarity_symmetric_witness :
  (score (sim_scores demo_matrix [1; 0]) 2
   == score (sim_scores demo_matrix [0; 1]) 0)%Q.
Proof. by apply (similarity_symmetric demo_matrix 0 2). Defined.

(** ** A table, its own index and a matrix of the same height *)

Lemma get_recommendations_total argsort d t2i m title top_n idx sig :
  argsort_spec argsort ->
  t2i !! norm_title title = Some idx ->
  getrow m idx = Ok sig ->
  (length m <= length (title_col d))%nat ->
  exists l,
    get_recommendations argsort
      {| df := Some d; title_to_idx := Some t2i; tfidf_matrix := Some m |}
      title top_n = Ok l
    /\ Forall2 (fun i t => title_col d !! i = Some t)
         (sim_indices argsort (sim_scores m sig) top_n) l.
Proof.
  intros Hspec Hidx Hsig Hlen.
  rewrite (get_recommendations_resolved argsort d t2i m title top_n idx sig
             Hidx Hsig).
  apply iloc_total, Forall_forall.
  intros i Hi%(sim_indices_lt _ Hspec).
  rewrite length_sim_scores in Hi. lia.
Qed.

Lemma positions_of_elem titles k v :
  (k, v) ∈ positions_of titles ->
  0 <= v < Z.of_nat (length titles).
Proof.
  unfold positions_of.
  intros (i & x & [= -> ->] & Hx)%elem_of_lookup_imap_1.
  apply lookup_lt_Some in Hx. lia.
Qed.

Lemma getrow_in_range m idx :
  0 <= idx < Z.of_nat (length m) -> exists sig, getrow m idx = Ok sig.
Proof.
  intros Hidx. unfold getrow.
  destruct (Z.ltb_spec idx (- Z.of_nat (length m))); [lia|].
  destruct (Z.leb_spec (Z.of_nat (length m)) idx); [lia|]. simpl.
  destruct (Z.ltb_spec idx 0); [lia|].
  destruct (lookup_lt_is_Some_2 m (Z.to_nat idx)) as [r ->]; [lia|].
  by exists r.
Qed.

(** X14. On a consistent catalog the query always answers: when the index
    artifact lists every title of the table with its position and the
    matrix has one row per title, a query for any title of the table and
    any [top_n >= 0] returns a list, of [min top_n (rows - 1)] titles,
    all taken from the table. *)
Theorem consistent_catalog_answers argsort titles m t top_n :
  argsort_spec argsort ->
  length m = length titles ->
  t ∈ titles ->
  0 <= top_n ->
  exists l,
    get_recommendations argsort
      (load_data (Pickled {| title_col := titles |})
         (Pickled (HasItems (positions_of titles))) (Pickled m)).1
      t top_n = Ok l
    /\ length l = (Z.to_nat top_n `min` (length titles - 1))%nat
    /\ l ⊆ titles.
Proof.
  intros Hspec Hlen Ht Hn. simpl.
  apply list_elem_of_lookup in Ht as [i Hi].
  assert ((t, Z.of_nat i) ∈ positions_of titles) as Hin.
  { unfold positions_of.
    by apply (elem_of_lookup_imap_2 (fun i t => (t, Z.of_nat i)) titles t i). }
  destruct (title_to_idx_loop_is_Some (positions_of titles) ∅ t _ Hin)
    as [idx Hidx].
  destruct (title_to_idx_loop_lookup_inv _ _ _ _ Hidx)
    as [Hempty|(k & Hk & _)]; [by rewrite lookup_empty in Hempty|].
  apply positions_of_elem in Hk. rewrite <- Hlen in Hk.
  destruct (getrow_in_range m idx Hk) as [sig Hsig].
  destruct (get_recommendations_total argsort {| title_col := titles |}
              (build_title_to_idx (HasItems (positions_of titles)))
              m t top_n idx sig Hspec Hidx Hsig) as (l & Hl & Hf).
  { simpl. lia. }
  exists l. split; [exact Hl|]. split.
  - rewrite <- (Forall2_length _ _ _ Hf). unfold sim_indices.
    rewrite slice_1_length by lia.
    rewrite length_reverse, (argsort_length _ Hspec), length_sim_scores.
    by rewrite Hlen.
  - intros x Hx. apply list_elem_of_lookup in Hx as [j Hj].
    destruct (Forall2_lookup_r _ _ _ _ _ Hf Hj) as (p & _ & Hp).
    simpl in Hp. by eapply list_elem_of_lookup_2.
Qed.

Lemma consistent_catalog_answers_witness :
  exists l,
    get_recommendations argsort_stable
      (load_data (Pickled {| title_col := title_col demo_df |})
         (Pickled (HasItems (positions_of (title_col demo_df))))
         (Pickled demo_matrix)).1
      "Brazil" 5 = Ok l
    /\ length l = (Z.to_nat 5 `min` (length (title_col demo_df) - 1))%nat
    /\ l ⊆ title_col demo_df.
Proof.
  apply consistent_catalog_answers.
  - apply argsort_stable_spec_weaken, argsort_stable_correct.
  - reflexivity.
  - vm_compute. right. left.
  - lia.
Defined.

(** ** The best of the rest, and the way back from a title *)



(** X27. From a title back to its position: when the index artifact lists
    every title of a table with its position and no two titles normalise
    alike, the index built by [load_data] maps the key of the title at
    position [i] to [i]. *)
Theorem title_round_trip titles i t :
  NoDup (norm_title <$> titles) ->
  titles !! i = Some t ->
  build_title_to_idx (HasItems (positions_of titles)) !! norm_title t
  = Some (Z.of_nat i).
Proof.
  intros Hnd Hi.
  assert ((t, Z.of_nat i) ∈ positions_of titles) as Hin.
  { unfold positions_of.
    by apply (elem_of_lookup_imap_2 (fun i t => (t, Z.of_nat i)) titles t i). }
  destruct (title_to_idx_loop_is_Some (positions_of titles) ∅ t _ Hin)
    as [v Hv].
  unfold build_title_to_idx. simpl. rewrite Hv. f_equal.
  destruct (title_to_idx_loop_lookup_inv _ _ _ _ Hv)
    as [Hempty|(k & Hk & Hnorm)]; [by rewrite lookup_empty in Hempty|].
  unfold positions_of in Hk.
  apply elem_of_lookup_imap_1 in Hk as (j & x & [= -> ->] & Hj).
  f_equal. apply (NoDup_lookup _ j i (norm_title t) Hnd).
  - by rewrite list_lookup_fmap, Hj, <- Hnorm.
  - by rewrite list_lookup_fmap, Hi.
Qed.

Lemma title_round_trip_witness :
  build_title_to_idx (HasItems (positions_of (title_col demo_df)))
    !! norm_title "Casino"
  = Some (Z.of_nat 2).
Proof.
  apply title_round_trip; [|done].
  apply (bool_decide_eq_true_1 (NoDup _)). by vm_compute.
Defined.

(** * The application layer *)

(** ** Strings and keys of dictionaries *)

Lemma append_assoc (s1 s2 s3 : string) :
  (s1 +:+ s2) +:+ s3 = s1 +:+ (s2 +:+ s3).
Proof.
  induction s1 as [|c s1 IH]; [done|]. by rewrite !append_cons, IH.
Qed.

Lemma occurs_append c s1 s2 :
  occurs c (s1 +:+ s2) = occurs c s1 || occurs c s2.
Proof.
  induction s1 as [|a s1 IH]; [done|].
  rewrite append_cons. simpl. by rewrite IH, orb_assoc.
Qed.

Lemma after_last_append c s d :
  occurs c d = false -> after_last c (s +:+ String c d) = d.
Proof.
  intros Hd. induction s as [|a s IH].
  - change (EmptyString +:+ String c d) with (String c d). simpl.
    rewrite Hd. by rewrite bool_decide_eq_true_2.
  - rewrite append_cons. simpl.
    rewrite occurs_append. simpl. rewrite bool_decide_eq_true_2 by done.
    by rewrite orb_true_r.
Qed.

Lemma pretty_N_char_not_underscore x :
  bool_decide (pretty_N_char x = "_"%char) = false.
Proof.
  apply bool_decide_eq_false_2. unfold pretty_N_char.
  by repeat case_match.
Qed.

Lemma pretty_N_go_no_underscore x s :
  occurs "_" s = false -> occurs "_" (pretty_N_go x s) = false.
Proof.
  revert s. induction (N.lt_wf_0 x) as [x _ IH]; intros s Hs.
  destruct (decide (x = 0)%N) as [->|Hx]; [by rewrite pretty_N_go_0|].
  rewrite pretty_N_go_step by lia. apply IH.
  - apply N.div_lt; lia.
  - simpl. by rewrite pretty_N_char_not_underscore.
Qed.

Lemma pretty_nat_no_underscore (n : nat) : occurs "_" (pretty n) = false.
Proof.
  unfold pretty, pretty_nat, pretty, pretty_N.
  case_decide; [done|]. by apply pretty_N_go_no_underscore.
Qed.

Lemma rec_entry_lookups t p_url t_id :
  py_get (rec_entry t p_url t_id) "poster_url" PNone = Val p_url
  /\ py_get (rec_entry t p_url t_id) "poster_path" PNone = Val PNone
  /\ py_get (rec_entry t p_url t_id) "title" (PStr "Untitled") = Val (PStr t)
  /\ py_get (rec_entry t p_url t_id) "id" PNone = Val PNone
  /\ py_get (rec_entry t p_url t_id) "tmdb_id" PNone = Val t_id.
Proof. unfold rec_entry, py_get. by repeat split; simplify_map_eq. Qed.

Section TmdbFacts.
Variable env : Env.


(** ** Requests *)

(** X15. The key and the language of a request are those of the
    application: values that a caller puts under ["api_key"] or
    ["language"] never reach TMDB. *)
Theorem fetch_tmdb_reserved_params endpoint params k l :
  fetch_tmdb env endpoint
    (Some (<["api_key" := k]> (<["language" := l]> params)))
  = fetch_tmdb env endpoint (Some params).
Proof.
  unfold fetch_tmdb. simpl.
  rewrite insert_insert_eq.
  rewrite (insert_insert_ne _ "language" "api_key") by done.
  rewrite insert_insert_eq.
  by rewrite (insert_insert_ne _ "api_key" "language") by done.
Qed.

(** ** Posters *)

(** X16. What [get_poster_url] returns: the poster is [None] or the image
    base followed by a path that counts as true, and both are [None]
    when the search gave nothing. *)
Theorem get_poster_url_shape title p_url t_id :
  get_poster_url env title
  = Val (p_url, t_id) ->
  (p_url = PNone
   \/ exists path, truthy path = true
                   /\ p_url = PStr (TMDB_IMG_PATH +:+ format env path))
  /\ (truthy (search_tmdb env title) = false -> p_url = PNone /\ t_id = PNone).
Proof.
  unfold get_poster_url.
  destruct (truthy (search_tmdb env title)) eqn:Hdata.
  - destruct (py_get (search_tmdb env title) "results" PNone) as [results|];
      [|done]. simpl.
    destruct (truthy results).
    + destruct (py_item (search_tmdb env title) "results") as [r|]; [|done].
      simpl. destruct (py_first r) as [first|]; [|done]. simpl.
      destruct (py_get first "poster_path" PNone) as [img_path|]; [|done].
      simpl. destruct (py_get first "id" PNone) as [tmdb_id|]; [|done].
      simpl. intros [= <- <-]. split; [|done].
      destruct (truthy img_path) eqn:Himg; [right; by exists img_path|by left].
    + intros [= <- <-]. split; [by left|done].
  - intros [= <- <-]. split; [by left|done].
Qed.

(** X17. [get_poster_url] returns whenever the search gave [None] or a
    dictionary whose ["results"] are absent or a list of dictionaries. *)
Theorem get_poster_url_total title :
  search_tmdb env title = PNone
  \/ (exists d, search_tmdb env title = PDict d
       /\ (d !! "results" = None
           \/ exists movies,
                d !! "results" = Some (PList (PDict <$> movies)))) ->
  exists p_url t_id,
    get_poster_url env title
    = Val (p_url, t_id).
Proof.
  unfold get_poster_url.
  intros [->|(d & -> & [Hr|(movies & Hr)])].
  - by exists PNone, PNone.
  - destruct (truthy (PDict d)); [|by exists PNone, PNone].
    simpl. rewrite Hr. simpl. by exists PNone, PNone.
  - destruct (truthy (PDict d)); [|by exists PNone, PNone].
    simpl. rewrite Hr. simpl.
    destruct movies as [|movie movies]; simpl; [by exists PNone, PNone|].
    by eexists _, _.
Qed.

(** ** Local recommendations in [view_details] *)

Lemma rec_movies_loop_spec titles acc l :
  rec_movies_loop env titles acc = Val l ->
  exists kept : list (string * (pyval * pyval)),
    l = acc ++ ((fun e => rec_entry e.1 e.2.1 e.2.2) <$> kept)
    /\ (fst <$> kept) `sublist_of` titles
    /\ Forall (fun e =>
                 get_poster_url env e.1 = Val e.2
                 /\ truthy e.2.2 = true) kept.
Proof.
  revert acc. induction titles as [|t titles IH]; intros acc; simpl.
  - intros [= <-]. exists []. simpl. by rewrite app_nil_r.
  - destruct (get_poster_url env t) as [[p_url t_id]|] eqn:Hp; [|done]. simpl.
    destruct (truthy t_id) eqn:Hid.
    + intros (kept & -> & Hsub & Hall)%IH.
      exists ((t, (p_url, t_id)) :: kept). simpl. split; [|split].
      * by rewrite <- app_assoc.
      * by constructor.
      * by constructor.
    + intros (kept & -> & Hsub & Hall)%IH.
      exists kept. split; [done|]. split; [by constructor|done].
Qed.

Lemma rec_movies_loop_length titles l :
  rec_movies_loop env titles [] = Val l -> (length l <= length titles)%nat.
Proof.
  intros (kept & -> & Hsub & _)%rec_movies_loop_spec. simpl.
  rewrite length_fmap, <- (length_fmap fst kept).
  by apply sublist_length.
Qed.


Lemma rec_movies_loop_none titles acc :
  Forall (fun t => exists p_url t_id,
            get_poster_url env t = Val (p_url, t_id)
            /\ truthy t_id = false) titles ->
  rec_movies_loop env titles acc = Val acc.
Proof.
  induction 1 as [|t titles (p_url & t_id & Hp & Hid) _ IH]; simpl; [done|].
  rewrite Hp. simpl. by rewrite Hid.
Qed.

Section Details.
Variable argsort : list Q -> list nat.


Lemma get_recommendations_dyn_length s title titles :
  get_recommendations_dyn argsort s title = Val titles ->
  (length titles <= 10)%nat.
Proof.
  unfold get_recommendations_dyn.
  destruct (df s) as [d|]; [|intros [= <-]; simpl; lia].
  destruct (tfidf_matrix s) as [m|]; [|intros [= <-]; simpl; lia].
  destruct title as [| | | |t| |]; try done.
  destruct (get_recommendations argsort s t 10) as [l|] eqn:E; [|done].
  intros [= <-].
  apply (get_recommendations_length argsort s t 10 l) in E; [|lia].
  simpl in E. lia.
Qed.

(** X19. Local recommendations are never cut by the [[:12]] of
    [view_details]: when the local query returns titles, [rec_movies] is
    a list of at most ten records, and if it is not empty the grid gets
    all of it. *)
Theorem local_recommendations_not_trimmed s details mid title titles recs :
  py_item details "title" = Val title ->
  get_recommendations_dyn argsort s title = Val titles ->
  titles ≠ [] ->
  rec_movies env argsort s details mid = Val recs ->
  exists l, recs = PList l
            /\ (length l <= 10)%nat
            /\ (l ≠ [] ->
                shown_movies env argsort s details mid
                = Val (Some (PList l))).
Proof.
  intros Htitle Htitles Hne Hrecs.
  unfold shown_movies. rewrite Hrecs. simpl.
  unfold rec_movies in Hrecs. rewrite Htitle in Hrecs. simpl in Hrecs.
  rewrite Htitles in Hrecs. simpl in Hrecs.
  destruct titles as [|t titles]; [done|].
  destruct (rec_movies_loop env (t :: titles) []) as [l|] eqn:Hl; [|done].
  simpl in Hrecs. injection Hrecs as <-.
  apply rec_movies_loop_length in Hl as Hlen.
  apply get_recommendations_dyn_length in Htitles.
  exists l. split; [done|]. split; [lia|].
  intros Hnil. destruct l as [|x l]; [done|]. simpl.
  by rewrite take_ge by (simpl in *; lia).
Qed.

(** X20. TMDB's own recommendations are a fallback for an empty local
    answer only: when the local query returns titles and the search for
    each of them gives no true id, [rec_movies] is empty and nothing is
    passed to the grid. *)
Theorem no_fallback_for_unmatched_titles s details mid title titles :
  py_item details "title" = Val title ->
  get_recommendations_dyn argsort s title = Val titles ->
  titles ≠ [] ->
  Forall (fun t => exists p_url t_id,
            get_poster_url env t = Val (p_url, t_id)
            /\ truthy t_id = false) titles ->
  rec_movies env argsort s details mid = Val (PList [])
  /\ shown_movies env argsort s details mid = Val None.
Proof.
  intros Htitle Htitles Hne Hall.
  assert (rec_movies env argsort s details mid = Val (PList [])) as Hrecs.
  { unfold rec_movies. rewrite Htitle. simpl. rewrite Htitles. simpl.
    destruct titles as [|t titles]; [done|].
    by rewrite (rec_movies_loop_none _ [] Hall). }
  split; [done|]. unfold shown_movies. by rewrite Hrecs.
Qed.

(** X21. After a failed load the details view relies on TMDB alone: when
    [load_data] showed an error message, [rec_movies] is the ["results"]
    of TMDB's recommendations for the selected movie, or empty if that
    request gave nothing, whatever the title is. *)
Theorem fallback_after_failed_load
    fdf findices fmatrix details mid title :
  (load_data fdf findices fmatrix).2 ≠ [] ->
  py_item details "title" = Val title ->
  rec_movies env argsort (load_data fdf findices fmatrix).1 details mid
  = (let tmdb_recs :=
       fetch_tmdb env
         ("/movie/" +:+ format env mid +:+ "/recommendations") None in
     if truthy tmdb_recs then py_get tmdb_recs "results" (PList [])
     else Val (PList [])).
Proof.
  intros Hmsg Htitle.
  destruct (load_data_cases fdf findices fmatrix)
    as [Hs|(d & indices & m & _ & _ & _ & Hload)].
  - rewrite Hs. unfold rec_movies. rewrite Htitle. by simpl.
  - by rewrite Hload in Hmsg.
Qed.

End Details.

(** ** Cards of the grid *)

(** X22. Every card has an image: the poster passed to [st.image] is
    never [None] or empty, and the card sits in one of six columns. *)
Theorem card_has_poster idx movie c :
  card env idx movie = Val c ->
  truthy (poster c) = true /\ (column c < 6)%nat.
Proof.
  unfold card.
  destruct (py_get movie "poster_url" PNone) as [poster_url|]; [|done].
  simpl.
  destruct (if truthy poster_url then Val poster_url else _) as [p|];
    [|done]. simpl.
  destruct (py_get movie "title" (PStr "Untitled")) as [t|]; [|done]. simpl.
  destruct (py_get movie "id" PNone) as [id|]; [|done]. simpl.
  destruct (if truthy id then Val id else _) as [m|]; [|done]. simpl.
  intros [= <-]. split.
  - simpl. by destruct (truthy p) eqn:Hp.
  - simpl. lia.
Qed.

Lemma card_key idx movie c :
  card env idx movie = Val c ->
  key c = ("btn_" +:+ format env (mid c)) +:+ String "_" (pretty idx).
Proof.
  unfold card.
  destruct (py_get movie "poster_url" PNone) as [poster_url|]; [|done].
  simpl.
  destruct (if truthy poster_url then Val poster_url else _) as [p|];
    [|done]. simpl.
  destruct (py_get movie "title" (PStr "Untitled")) as [t|]; [|done]. simpl.
  destruct (py_get movie "id" PNone) as [id|]; [|done]. simpl.
  destruct (if truthy id then Val id else _) as [m|]; [|done]. simpl.
  intros [= <-]. simpl. by rewrite append_assoc.
Qed.

(** X23. Within one grid no two buttons share a key: cards at different
    indices have different keys, whatever the movies and their ids. *)
Theorem card_keys_distinct idx1 idx2 movie1 movie2 c1 c2 :
  card env idx1 movie1 = Val c1 ->
  card env idx2 movie2 = Val c2 ->
  idx1 ≠ idx2 ->
  key c1 ≠ key c2.
Proof.
  intros H1%card_key H2%card_key Hne Hkey. apply Hne.
  rewrite H1, H2 in Hkey.
  apply (f_equal (after_last "_")) in Hkey.
  rewrite !after_last_append in Hkey by apply pretty_nat_no_underscore.
  by apply (inj pretty).
Qed.

(** X24. A local recommendation leads to its own movie: the card of a
    record appended by [view_details] carries the title, the poster if
    there is one, and the id, and pressing its button selects that id in
    the details view. *)
Theorem local_recommendation_card idx t p_url t_id st :
  truthy t_id = true ->
  exists c,
    card env idx (rec_entry t p_url t_id) = Val c
    /\ mtit c = PStr t
    /\ poster c = (if truthy p_url then p_url else PStr NO_IMAGE)
    /\ mid c = t_id
    /\ navigate_to "details" (mid c) st
       = {| view := "details"; selected_movie_id := t_id |}.
Proof.
  intros Hid. unfold card.
  destruct (rec_entry_lookups t p_url t_id) as (-> & -> & -> & -> & ->).
  simpl. unfold navigate_to.
  destruct (truthy p_url) eqn:Hp; simpl; eexists; (split; [done|]); simpl;
    by rewrite ?Hp, Hid.
Qed.

End TmdbFacts.

(** ** Navigation *)

(** X25. Navigation never clears the selection: once a movie is selected,
    a movie is selected after any run of [navigate_to] calls, and the view
    is the one named by the last call. *)
Theorem selection_survives_navigation navs st :
  truthy (selected_movie_id st) = true ->
  truthy (selected_movie_id (navigations navs st)) = true
  /\ view (navigations navs st) = default (view st) (fst <$> last navs).
Proof.
  unfold navigations. revert st.
  induction navs as [|[v m] navs IH] using rev_ind; intros st Hsel.
  - done.
  - rewrite foldl_snoc, last_snoc. simpl.
    destruct (IH st Hsel) as [IHsel _]. split; [|done].
    by destruct (truthy m) eqn:Hm.
Qed.

(** ** Examples for the application layer *)

Lemma get_poster_url_shape_witness :
  (PStr (TMDB_IMG_PATH +:+ "/casino.jpg") = PNone
   \/ exists path,
        truthy path = true
        /\ PStr (TMDB_IMG_PATH +:+ "/casino.jpg")
           = PStr (TMDB_IMG_PATH +:+ format demo_env path))
  /\ (truthy (search_tmdb demo_env "Casino") = false ->
      PStr (TMDB_IMG_PATH +:+ "/casino.jpg") = PNone /\ PInt 524 = PNone).
Proof.
  apply (get_poster_url_shape demo_env
           "Casino").
  by vm_compute.
Defined.

Lemma get_poster_url_total_witness :
  exists p_url t_id,
    get_poster_url demo_env "Brazil"
    = Val (p_url, t_id).
Proof.
  apply get_poster_url_total. right.
  exists (<["results" := PList []]> ∅). split; [by vm_compute|].
  right. exists []. by vm_compute.
Defined.


Lemma local_recommendations_not_trimmed_witness :
  exists l,
    PList [rec_entry "Casino" (PStr (TMDB_IMG_PATH +:+ "/casino.jpg"))
             (PInt 524)]
    = PList l
    /\ (length l <= 10)%nat
    /\ (l ≠ [] ->
        shown_movies demo_env argsort_stable
          demo (demo_details "Alien") (PInt 1)
        = Val (Some (PList l))).
Proof.
  apply (local_recommendations_not_trimmed demo_env argsort_stable demo
           (demo_details "Alien") (PInt 1)
           (PStr "Alien") ["Casino"; "Brazil"]).
  - by vm_compute.
  - by vm_compute.
  - done.
  - by vm_compute.
Defined.

Lemma no_fallback_for_unmatched_titles_witness :
  rec_movies demo_env argsort_stable
    demo (demo_details "Casino") (PInt 524)
  = Val (PList [])
  /\ shown_movies demo_env argsort_stable
       demo (demo_details "Casino") (PInt 524)
     = Val None.
Proof.
  apply (no_fallback_for_unmatched_titles demo_env argsort_stable demo
           (demo_details "Casino") (PInt 524)
           (PStr "Casino") ["Brazil"; "Alien"]).
  - by vm_compute.
  - by vm_compute.
  - done.
  - repeat constructor; exists PNone, PNone; by vm_compute.
Defined.

Lemma fallback_after_failed_load_witness :
  rec_movies demo_env argsort_stable
    (load_data Absent (Pickled demo_indices) (Pickled demo_matrix)).1
    (demo_details "Alien") (PInt 1)
  = (let tmdb_recs :=
       fetch_tmdb demo_env
         ("/movie/" +:+ format demo_env (PInt 1) +:+ "/recommendations") None in
     if truthy tmdb_recs then py_get tmdb_recs "results" (PList [])
     else Val (PList [])).
Proof.
  apply (fallback_after_failed_load demo_env argsort_stable Absent
           (Pickled demo_indices) (Pickled demo_matrix)
           (demo_details "Alien") (PInt 1) (PStr "Alien")).
  - done.
  - by vm_compute.
Defined.

Lemma card_has_poster_witness :
  exists c,
    card demo_env 7 (demo_hit 524 "/casino.jpg") = Val c
    /\ truthy (poster c) = true /\ (column c < 6)%nat.
Proof.
  eexists. split; [by vm_compute|].
  apply (card_has_poster demo_env 7 (demo_hit 524 "/casino.jpg")).
  by vm_compute.
Defined.

Lemma card_keys_distinct_witness :
  exists c1 c2,
    card demo_env 0 (demo_hit 524 "/casino.jpg") = Val c1
    /\ card demo_env 6 (demo_hit 524 "/casino.jpg") = Val c2
    /\ key c1 ≠ key c2.
Proof.
  eexists _, _. split; [by vm_compute|]. split; [by vm_compute|].
  apply (card_keys_distinct demo_env 0 6 (demo_hit 524 "/casino.jpg")
           (demo_hit 524 "/casino.jpg")).
  - by vm_compute.
  - by vm_compute.
  - done.
Defined.

Lemma local_recommendation_card_witness :
  exists c,
    card demo_env 0 (rec_entry "Casino" PNone (PInt 524)) = Val c
    /\ mtit c = PStr "Casino"
    /\ poster c = (if truthy PNone then PNone else PStr NO_IMAGE)
    /\ mid c = PInt 524
    /\ navigate_to "details" (mid c)
         {| view := "home"; selected_movie_id := PNone |}
       = {| view := "details"; selected_movie_id := PInt 524 |}.
Proof. by apply local_recommendation_card. Defined.

Lemma selection_survives_navigation_witness :
  let st := {| view := "details"; selected_movie_id := PInt 524 |} in
  let navs := [("home", PNone); ("details", PInt 0)] in
  truthy (selected_movie_id (navigations navs st)) = true
  /\ view (navigations navs st) = default (view st) (fst <$> last navs).
Proof. by apply selection_survives_navigation. Defined.
